(** * Coyote-ESP32: bit-packed power and waveform encodings

    Shallow embedding of [Waveforms.h].  The three structs of the header
    ([CFGval], [PowerVal], [WaveVal]) are 32-bit allocation units made of
    [uint32_t] bit-fields.  On the target (ESP32, GCC, little-endian) the
    first declared bit-field occupies the least significant bits of the unit
    and the unit is stored least significant byte first, so an object is
    modelled by the integer value of its four storage bytes, a field by a
    bit range of that integer, and byte [i] of the object by bits
    [8*i .. 8*i+7]. *)

From Stdlib Require Import ZArith Lia List Strings.Byte.
From coqutil Require Import Z.bitblast.
From Equations Require Import Equations.
From stdpp Require Import base option list.
Import ListNotations.

Local Open Scope Z_scope.

(** ** Bit-fields over object storage *)

(** Reading the bit-field of width [w] at bit offset [off]. *)
Definition get_field (off w : Z) (obj : Z) : Z :=
  Z.land (Z.shiftr obj off) (Z.ones w).

(** Writing [v] into the bit-field of width [w] at bit offset [off]: the
    value is truncated to the width of the field, the other bits of the
    object are kept. *)
Definition set_field (off w : Z) (v : Z) (obj : Z) : Z :=
  Z.lor (Z.ldiff obj (Z.shiftl (Z.ones w) off))
        (Z.shiftl (Z.land v (Z.ones w)) off).

(** Conversion of an argument to [uint8_t], [uint16_t], [uint32_t]. *)
Definition uint8 (v : Z) : Z := v mod 2 ^ 8.
Definition uint16 (v : Z) : Z := v mod 2 ^ 16.
Definition uint32 (v : Z) : Z := v mod 2 ^ 32.

(** Bytes on the wire and in [std::vector<uint8_t>]. *)
Definition byte_to_Z (b : byte) : Z := Z.of_N (Byte.to_N b).

Definition byte_of_Z (v : Z) : byte :=
  match Byte.of_N (Z.to_N (uint8 v)) with
  | Some b => b
  | None => x00
  end.

(** [((uint8_t* ) obj)[i]]: byte [i] of the object, read and written. *)
Definition obj_byte (obj : Z) (i : nat) : byte :=
  byte_of_Z (get_field (8 * Z.of_nat i) 8 obj).

Definition obj_set_byte (i : nat) (b : byte) (obj : Z) : Z :=
  set_field (8 * Z.of_nat i) 8 (byte_to_Z b) obj.

(** The encodings are "transmitted LSB first 3 bytes only": the bytes sent
    from the pointer returned by [operator uint8_t*]. *)
Definition transmitted (obj : Z) : list byte :=
  map (obj_byte obj) [0%nat; 1%nat; 2%nat].

(** ** [CFGval]: maximum power and power stepping configuration *)
Module CFGval.

Definition step (cfg : Z) : Z := get_field 0 8 cfg.
Definition maxPwr (cfg : Z) : Z := get_field 8 11 cfg.
Definition rsvd (cfg : Z) : Z := get_field 19 13 cfg.

(** Aggregate initialisation [{s, m, r}] of a static object. *)
Definition init (s m r : Z) : Z :=
  set_field 19 13 r (set_field 8 11 m (set_field 0 8 s 0)).

End CFGval.

(** [gCoyoteCfg = {7, 2000, 0}] *)
Definition gCoyoteCfg : Z := CFGval.init 7 2000 0.

(** ** [PowerVal] *)
Module PowerVal.

Definition MAXPOWER : Z := 100.

Definition B (p : Z) : Z := get_field 0 11 p.
Definition A (p : Z) : Z := get_field 11 11 p.
Definition rsvd (p : Z) : Z := get_field 22 10 p.

(** [((v < 100) ? v : MAXPOWER) * gCoyoteCfg.step], computed in
    [uint32_t]. *)
Definition steps (cfg : Z) (v : Z) : Z :=
  uint32 ((if v <? 100 then v else MAXPOWER) * CFGval.step cfg).

(** [PowerVal(uint8_t a, uint8_t b)], reading the global configuration
    [cfg].  The member initialisers assign every bit of the object. *)
Definition ctor (cfg : Z) (a b : Z) : Z :=
  let a := uint8 a in
  let b := uint8 b in
  set_field 22 10 0
    (set_field 11 11 (steps cfg a)
       (set_field 0 11 (steps cfg b) 0)).

Definition to_bytes (p : Z) : list byte := transmitted p.

End PowerVal.

(** ** [WaveVal] *)
Module WaveVal.

Definition x (v : Z) : Z := get_field 0 5 v.
Definition y (v : Z) : Z := get_field 5 10 v.
Definition z (v : Z) : Z := get_field 15 5 v.
Definition rsvd (v : Z) : Z := get_field 20 12 v.

(** [WaveVal(uint8_t X, uint16_t Y, uint8_t Z)].  The member initialisers
    assign every bit of the object. *)
Definition ctor (X Y Z : BinNums.Z) : BinNums.Z :=
  let X := uint8 X in
  let Y := uint16 Y in
  let Z := uint8 Z in
  set_field 20 12 0
    (set_field 15 5 Z
       (set_field 5 10 Y
          (set_field 0 5 X 0))).

(** [while (bytes.size() < 3) bytes.push_back(0x00);] *)
Equations? pad (bytes : list byte) : list byte
  by wf (3 - length bytes)%nat lt :=
  pad bytes with lt_dec (length bytes) 3 := {
    | left _ => pad (bytes ++ [x00]);
    | right _ => bytes }.
Proof. rewrite length_app. simpl. lia. Qed.

(** [for (i = ...; i < 3; i++) b[i] = bytes[i];] with [n] iterations left.
    [bytes[i]] is [std::vector::operator[]], which has no meaning outside
    the vector: the copy then has no result. *)
Fixpoint copy (n : nat) (i : nat) (bytes : list byte) (this : Z)
  : option Z :=
  match n with
  | O => Some this
  | S n' =>
      match bytes !! i with
      | Some b => copy n' (S i) bytes (obj_set_byte i b this)
      | None => None
      end
  end.

(** [WaveVal(std::vector<uint8_t> bytes)].  There are no member
    initialisers: the constructor overwrites the first three bytes of the
    storage [this] it is run on and leaves the fourth as it finds it. *)
Definition from_bytes (bytes : list byte) (this : Z) : option Z :=
  copy 3 0 (pad bytes) this.

Definition to_bytes (v : Z) : list byte := transmitted v.

End WaveVal.

(** A byte sequence right-padded with zero bytes, or truncated, to exactly
    three bytes. *)
Definition pad_or_truncate (bytes : list byte) : list byte :=
  take 3 (bytes ++ [x00; x00; x00]).

(** The integer a byte sequence denotes, least significant byte first. *)
Definition le_value (bytes : list byte) : Z :=
  fold_right (fun b acc => byte_to_Z b + 2 ^ 8 * acc) 0 bytes.

(** ** Waveforms *)

(** [typedef std::vector<WaveVal> Waveform;] *)
Definition Waveform : Type := list Z.

(** Brace initialisation of a [Waveform] from temporaries built by the byte
    constructor: temporary number [i] is constructed in storage whose
    content on entry is [fresh i], and the elements are kept in the order
    they are written. *)
Fixpoint construct (fresh : nat -> Z) (i : nat) (ctors : list (Z -> option Z))
  : option Waveform :=
  match ctors with
  | [] => Some []
  | c :: ctors' =>
      v ← c (fresh i);
      vs ← construct fresh (S i) ctors';
      Some (v :: vs)
  end.

(** The parameters of a step, as the fields read them. *)
Definition xyz (v : Z) : Z * Z * Z := (WaveVal.x v, WaveVal.y v, WaveVal.z v).

(** *** Pre-defined DG Labs waveforms *)
Module DGLABS.

Definition GrainTouch (fresh : nat -> Z) : option Waveform :=
  construct fresh 0
    [WaveVal.from_bytes [xe1; x03; x00];
     WaveVal.from_bytes [xe1; x03; x0a];
     WaveVal.from_bytes [xa1; x04; x0a];
     WaveVal.from_bytes [xc1; x05; x0a];
     WaveVal.from_bytes [x01; x07; x00];
     WaveVal.from_bytes [x21; x01; x0a];
     WaveVal.from_bytes [x61; x01; x0a];
     WaveVal.from_bytes [xa1; x01; x0a];
     WaveVal.from_bytes [x01; x02; x00];
     WaveVal.from_bytes [x01; x02; x0a];
     WaveVal.from_bytes [x81; x02; x0a];
     WaveVal.from_bytes [x21; x03; x0a]].

(** High-frequency waveform that is modulated when using audio source. *)
Definition AudioBase : Waveform := [WaveVal.ctor 1 9 16].

End DGLABS.

(** *** Some other interesting waveforms *)
Module LTX4JAY.

Definition IntenseVibration : Waveform := [WaveVal.ctor 1 9 22].

Definition SlowWave : Waveform :=
  [WaveVal.ctor 1 26 8;
   WaveVal.ctor 1 26 8;
   WaveVal.ctor 1 24 10;
   WaveVal.ctor 1 22 12;
   WaveVal.ctor 1 20 14;
   WaveVal.ctor 1 18 16;
   WaveVal.ctor 1 16 18;
   WaveVal.ctor 1 16 22;
   WaveVal.ctor 1 16 24;
   WaveVal.ctor 1 12 24;
   WaveVal.ctor 1 12 24;
   WaveVal.ctor 1 16 24;
   WaveVal.ctor 1 16 22;
   WaveVal.ctor 1 16 18;
   WaveVal.ctor 1 18 16;
   WaveVal.ctor 1 20 14;
   WaveVal.ctor 1 22 12;
   WaveVal.ctor 1 24 10].

Definition MediumWave : Waveform :=
  [WaveVal.ctor 1 9 4;
   WaveVal.ctor 1 9 4;
   WaveVal.ctor 1 9 6;
   WaveVal.ctor 1 9 10;
   WaveVal.ctor 1 9 12;
   WaveVal.ctor 1 9 17;
   WaveVal.ctor 1 9 20;
   WaveVal.ctor 1 9 20;
   WaveVal.ctor 1 9 20;
   WaveVal.ctor 1 9 20;
   WaveVal.ctor 1 9 20;
   WaveVal.ctor 1 9 17;
   WaveVal.ctor 1 9 12;
   WaveVal.ctor 1 9 10;
   WaveVal.ctor 1 9 6].

End LTX4JAY.

(** * Properties *)

(** ** Bit-fields *)

Lemma get_field_div_mod off w obj :
  0 <= off -> 0 <= w -> get_field off w obj = (obj / 2 ^ off) mod 2 ^ w.
Proof.
  intros Hoff Hw. unfold get_field.
  rewrite Z.land_ones, Z.shiftr_div_pow2 by assumption. reflexivity.
Qed.

Lemma get_field_range off w obj : 0 <= w -> 0 <= get_field off w obj < 2 ^ w.
Proof.
  intros Hw. unfold get_field. rewrite Z.land_ones by assumption.
  apply Z.mod_pos_bound. apply Z.pow_pos_nonneg; lia.
Qed.

Lemma get_field_testbit off w obj i :
  0 <= off -> 0 <= w -> 0 <= i ->
  Z.testbit (get_field off w obj) i = (i <? w) && Z.testbit obj (i + off).
Proof.
  intros Hoff Hw Hi. unfold get_field.
  rewrite Z.land_spec, Z.shiftr_spec, Z.testbit_ones_nonneg by assumption.
  apply andb_comm.
Qed.

(** A field is determined by the bits it covers. *)
Lemma get_field_ext off w obj obj' :
  0 <= off -> 0 <= w ->
  (forall i, off <= i < off + w -> Z.testbit obj i = Z.testbit obj' i) ->
  get_field off w obj = get_field off w obj'.
Proof.
  intros Hoff Hw Hbits. apply Z.bits_inj'. intros i Hi.
  rewrite !get_field_testbit by assumption.
  destruct (Z.ltb_spec i w) as [Hlt | Hge]; simpl; [ | reflexivity ].
  apply Hbits. lia.
Qed.

Lemma get_set_same off w v obj :
  0 <= off -> 0 <= w ->
  get_field off w (set_field off w v obj) = v mod 2 ^ w.
Proof.
  intros Hoff Hw. unfold get_field, set_field.
  rewrite <- (Z.land_ones v w) by assumption.
  Z.bitblast.
Qed.

Lemma get_set_other off w off' w' v obj :
  0 <= off -> 0 <= w -> 0 <= off' -> 0 <= w' ->
  off + w <= off' \/ off' + w' <= off ->
  get_field off w (set_field off' w' v obj) = get_field off w obj.
Proof.
  intros Hoff Hw Hoff' Hw' Hdisj. unfold get_field, set_field.
  Z.bitblast.
Qed.

(** ** Bytes *)

Lemma byte_to_Z_range b : 0 <= byte_to_Z b < 2 ^ 8.
Proof.
  unfold byte_to_Z. pose proof (Byte.to_N_bounded b) as Hb.
  change (2 ^ 8) with 256. lia.
Qed.

Lemma byte_of_to_Z b : byte_of_Z (byte_to_Z b) = b.
Proof.
  unfold byte_of_Z, uint8.
  rewrite Z.mod_small by apply byte_to_Z_range.
  unfold byte_to_Z. rewrite N2Z.id, Byte.of_to_N. reflexivity.
Qed.

Lemma byte_to_of_Z v : 0 <= v < 2 ^ 8 -> byte_to_Z (byte_of_Z v) = v.
Proof.
  intros Hv. unfold byte_of_Z, uint8. rewrite Z.mod_small by assumption.
  destruct (Byte.of_N (Z.to_N v)) as [b | ] eqn:Hof.
  - apply Byte.to_of_N in Hof. unfold byte_to_Z. rewrite Hof. lia.
  - apply Byte.of_N_None_iff in Hof. change (2 ^ 8) with 256 in Hv. lia.
Qed.

Lemma obj_byte_set_same i b obj : obj_byte (obj_set_byte i b obj) i = b.
Proof.
  unfold obj_byte, obj_set_byte. rewrite get_set_same by lia.
  rewrite Z.mod_small by apply byte_to_Z_range. apply byte_of_to_Z.
Qed.

Lemma obj_byte_set_other i j b obj :
  i <> j -> obj_byte (obj_set_byte j b obj) i = obj_byte obj i.
Proof.
  intros Hij. unfold obj_byte, obj_set_byte.
  rewrite get_set_other by lia. reflexivity.
Qed.

(** The transmitted bytes of two objects agree exactly when their low 24
    bits do. *)
Lemma obj_byte_inj obj obj' i :
  obj_byte obj i = obj_byte obj' i ->
  get_field (8 * Z.of_nat i) 8 obj = get_field (8 * Z.of_nat i) 8 obj'.
Proof.
  unfold obj_byte. intros Heq. apply (f_equal byte_to_Z) in Heq.
  rewrite !byte_to_of_Z in Heq by (apply get_field_range; lia).
  exact Heq.
Qed.

Lemma transmitted_testbit obj obj' i :
  transmitted obj = transmitted obj' -> 0 <= i < 24 ->
  Z.testbit obj i = Z.testbit obj' i.
Proof.
  unfold transmitted. simpl. intros Heq Hi.
  injection Heq as H0 H1 H2.
  apply obj_byte_inj in H0, H1, H2.
  assert (Hbit : forall k j, 0 <= j < 8 ->
    get_field (8 * Z.of_nat k) 8 obj = get_field (8 * Z.of_nat k) 8 obj' ->
    Z.testbit obj (j + 8 * Z.of_nat k) = Z.testbit obj' (j + 8 * Z.of_nat k)).
  { intros k j Hj Hk. apply (f_equal (fun v => Z.testbit v j)) in Hk.
    rewrite !get_field_testbit in Hk by lia.
    destruct (Z.ltb_spec j 8); [ exact Hk | lia ]. }
  destruct (Z_lt_dec i 8); [ | destruct (Z_lt_dec i 16) ].
  - specialize (Hbit 0%nat i). simpl in Hbit. rewrite Z.add_0_r in Hbit.
    apply Hbit; [ lia | exact H0 ].
  - specialize (Hbit 1%nat (i - 8)).
    replace (i - 8 + 8 * Z.of_nat 1) with i in Hbit by lia.
    apply Hbit; [ lia | exact H1 ].
  - specialize (Hbit 2%nat (i - 16)).
    replace (i - 16 + 8 * Z.of_nat 2) with i in Hbit by lia.
    apply Hbit; [ lia | exact H2 ].
Qed.

Lemma transmitted_fields obj obj' off w :
  transmitted obj = transmitted obj' ->
  0 <= off -> 0 <= w -> off + w <= 24 ->
  get_field off w obj = get_field off w obj'.
Proof.
  intros Heq Hoff Hw Hfit. apply get_field_ext; [ assumption .. | ].
  intros i Hi. apply (transmitted_testbit _ _ _ Heq). lia.
Qed.

Lemma transmitted_xyz obj obj' :
  transmitted obj = transmitted obj' -> xyz obj = xyz obj'.
Proof.
  intros Heq. unfold xyz, WaveVal.x, WaveVal.y, WaveVal.z.
  rewrite (transmitted_fields obj obj' 0 5),
    (transmitted_fields obj obj' 5 10),
    (transmitted_fields obj obj' 15 5) by (assumption || lia).
  reflexivity.
Qed.

(** ** The byte constructor *)


(** The padding loop stops, and appends exactly the missing zero bytes. *)
Lemma pad_spec bytes :
  WaveVal.pad bytes = bytes ++ replicate (3 - length bytes) x00.
Proof.
  funelim (WaveVal.pad bytes).
  - match goal with IH : WaveVal.pad _ = (_ ++ _) ++ _ |- _ => rewrite IH end.
    rewrite <- List.app_assoc. f_equal. rewrite length_app. simpl.
    replace (3 - length bytes)%nat with (S (3 - (length bytes + 1)))%nat by lia.
    reflexivity.
  - replace (3 - length bytes)%nat with 0%nat by lia.
    simpl. rewrite app_nil_r. reflexivity.
Qed.

Lemma pad_length bytes : (3 <= length (WaveVal.pad bytes))%nat.
Proof. rewrite pad_spec, length_app, length_replicate. lia. Qed.

Lemma pad_or_truncate_length bytes : length (pad_or_truncate bytes) = 3%nat.
Proof.
  unfold pad_or_truncate. apply length_take_le.
  rewrite length_app. simpl. lia.
Qed.

(** The three indexings [bytes[0]], [bytes[1]], [bytes[2]] are inside the
    padded vector, and the object ends up holding those bytes in its first
    three bytes. *)
Lemma from_bytes_spec bytes this :
  exists b0 b1 b2,
    pad_or_truncate bytes = [b0; b1; b2] /\
    WaveVal.from_bytes bytes this =
      Some (obj_set_byte 2 b2 (obj_set_byte 1 b1 (obj_set_byte 0 b0 this))).
Proof.
  unfold WaveVal.from_bytes, pad_or_truncate. rewrite pad_spec.
  destruct bytes as [ | a [ | b [ | c rest ] ] ]; simpl; eauto.
Qed.

Lemma transmitted_set3 b0 b1 b2 this :
  transmitted (obj_set_byte 2 b2 (obj_set_byte 1 b1 (obj_set_byte 0 b0 this)))
  = [b0; b1; b2].
Proof.
  unfold transmitted. simpl.
  rewrite obj_byte_set_same.
  rewrite (obj_byte_set_other 1 2), obj_byte_set_same by lia.
  rewrite (obj_byte_set_other 0 2), (obj_byte_set_other 0 1),
    obj_byte_set_same by lia.
  reflexivity.
Qed.

(** The fourth byte of the storage is not touched. *)
Lemma fourth_byte_set3 b0 b1 b2 this :
  get_field 24 8
    (obj_set_byte 2 b2 (obj_set_byte 1 b1 (obj_set_byte 0 b0 this)))
  = get_field 24 8 this.
Proof.
  unfold obj_set_byte. rewrite !get_set_other by lia. reflexivity.
Qed.

Lemma from_bytes_transmitted bytes this :
  exists v, WaveVal.from_bytes bytes this = Some v /\
            WaveVal.to_bytes v = pad_or_truncate bytes /\
            get_field 24 8 v = get_field 24 8 this.
Proof.
  destruct (from_bytes_spec bytes this) as (b0 & b1 & b2 & Hnorm & Hres).
  eexists. split; [ exact Hres | ]. split.
  - unfold WaveVal.to_bytes. rewrite transmitted_set3. symmetry. exact Hnorm.
  - apply fourth_byte_set3.
Qed.

Lemma transmitted_length obj : length (transmitted obj) = 3%nat.
Proof. reflexivity. Qed.

Lemma pad_or_truncate_id bytes :
  length bytes = 3%nat -> pad_or_truncate bytes = bytes.
Proof.
  intros Hlen. unfold pad_or_truncate.
  rewrite take_app_le by lia. apply take_ge. lia.
Qed.

(** ** The field constructors *)

Lemma WaveVal_ctor_fields X Y Z :
  WaveVal.x (WaveVal.ctor X Y Z) = X mod 2 ^ 5 /\
  WaveVal.y (WaveVal.ctor X Y Z) = Y mod 2 ^ 10 /\
  WaveVal.z (WaveVal.ctor X Y Z) = Z mod 2 ^ 5 /\
  WaveVal.rsvd (WaveVal.ctor X Y Z) = 0.
Proof.
  unfold WaveVal.x, WaveVal.y, WaveVal.z, WaveVal.rsvd, WaveVal.ctor.
  unfold uint8, uint16.
  repeat split.
  - rewrite !get_set_other, get_set_same by lia.
    change (2 ^ 8) with (2 ^ 5 * 2 ^ 3).
    rewrite Z.rem_mul_r, Z.mul_comm, Z.mod_add by lia.
    apply Z.mod_mod. lia.
  - rewrite !get_set_other, get_set_same by lia.
    change (2 ^ 16) with (2 ^ 10 * 2 ^ 6).
    rewrite Z.rem_mul_r, Z.mul_comm, Z.mod_add by lia.
    apply Z.mod_mod. lia.
  - rewrite !get_set_other, get_set_same by lia.
    change (2 ^ 8) with (2 ^ 5 * 2 ^ 3).
    rewrite Z.rem_mul_r, Z.mul_comm, Z.mod_add by lia.
    apply Z.mod_mod. lia.
  - rewrite get_set_same by lia. reflexivity.
Qed.

Lemma CFGval_step_range cfg : 0 <= CFGval.step cfg < 2 ^ 8.
Proof. apply get_field_range. lia. Qed.

Lemma steps_bounds cfg v :
  0 <= v ->
  0 <= PowerVal.steps cfg v <= 100 * CFGval.step cfg /\
  PowerVal.steps cfg v =
    (if v <? 100 then v else PowerVal.MAXPOWER) * CFGval.step cfg.
Proof.
  intros Hv. pose proof (CFGval_step_range cfg) as Hs.
  change (2 ^ 8) with 256 in Hs.
  unfold PowerVal.steps, PowerVal.MAXPOWER, uint32.
  assert (Hsel : 0 <= (if v <? 100 then v else 100) <= 100)
    by (destruct (Z.ltb_spec v 100); lia).
  rewrite Z.mod_small by (change (2 ^ 32) with 4294967296; nia).
  split; [ nia | reflexivity ].
Qed.

(** The channel fields hold the scaled power truncated to 11 bits. *)
Lemma PowerVal_ctor_fields cfg a b :
  PowerVal.A (PowerVal.ctor cfg a b) = PowerVal.steps cfg (uint8 a) mod 2 ^ 11 /\
  PowerVal.B (PowerVal.ctor cfg a b) = PowerVal.steps cfg (uint8 b) mod 2 ^ 11 /\
  PowerVal.rsvd (PowerVal.ctor cfg a b) = 0.
Proof.
  unfold PowerVal.A, PowerVal.B, PowerVal.rsvd, PowerVal.ctor.
  repeat split.
  - rewrite get_set_other, get_set_same by lia. reflexivity.
  - rewrite !get_set_other, get_set_same by lia. reflexivity.
  - rewrite get_set_same by lia. reflexivity.
Qed.

(** Without wrap-around in the 11-bit field, a level below 100 is scaled by
    [step] and a level of 100 or more is scaled as 100. *)
Lemma PowerVal_channel_fits cfg v :
  0 <= v < 2 ^ 8 ->
  (if v <? 100 then v else 100) * CFGval.step cfg < 2 ^ 11 ->
  PowerVal.steps cfg (uint8 v) mod 2 ^ 11 =
    (if v <? 100 then v else 100) * CFGval.step cfg.
Proof.
  intros Hv Hfit. unfold uint8. rewrite (Z.mod_small v) by assumption.
  destruct (steps_bounds cfg v) as [Hb Heq]; [ lia | ].
  rewrite Heq in *. unfold PowerVal.MAXPOWER in *.
  apply Z.mod_small. lia.
Qed.

(** ** The wire layout *)

(** The three transmitted bytes are the low 24 bits of the object. *)
Lemma le_value_transmitted obj : le_value (transmitted obj) = get_field 0 24 obj.
Proof.
  unfold le_value, transmitted, obj_byte. simpl.
  rewrite !byte_to_of_Z by (apply get_field_range; lia).
  rewrite !get_field_div_mod by lia.
  change (2 ^ 0) with 1. change (2 ^ 8) with 256.
  change (2 ^ 16) with 65536. change (2 ^ 24) with 16777216.
  Z.div_mod_to_equations. lia.
Qed.

(** [x] in bits 0-4, [y] in bits 5-14, [z] in bits 15-19, nothing above. *)
Lemma WaveVal_ctor_value X Y Z :
  WaveVal.ctor X Y Z = X mod 2 ^ 5 + 2 ^ 5 * (Y mod 2 ^ 10) + 2 ^ 15 * (Z mod 2 ^ 5).
Proof.
  transitivity
    (Z.lor (Z.land X (Z.ones 5))
       (Z.lor (Z.shiftl (Z.land Y (Z.ones 10)) 5)
              (Z.shiftl (Z.land Z (Z.ones 5)) 15))).
  - unfold WaveVal.ctor, set_field, uint8, uint16.
    rewrite <- !Z.land_ones by lia. Z.bitblast.
  - rewrite !Z.or_to_plus by Z.bitblast.
    rewrite !Z.shiftl_mul_pow2, !Z.land_ones by lia. lia.
Qed.

(** ** Whole objects *)

Lemma testbit_small v n i :
  0 <= v < 2 ^ n -> 0 <= n <= i -> Z.testbit v i = false.
Proof.
  intros Hv Hi. rewrite <- (Z.mod_small v (2 ^ n)) by assumption.
  apply Z.mod_pow2_bits_high. assumption.
Qed.

Lemma set_field_testbit_other off w x obj i :
  0 <= off -> 0 <= w -> i < off \/ off + w <= i ->
  Z.testbit (set_field off w x obj) i = Z.testbit obj i.
Proof.
  intros Hoff Hw Hout. destruct (Z.ltb_spec i 0) as [Hneg | Hpos].
  - rewrite !Z.testbit_neg_r by assumption. reflexivity.
  - unfold set_field. Z.bitblast_core.
Qed.

Lemma WaveVal_ctor_range X Y Z : 0 <= WaveVal.ctor X Y Z < 2 ^ 20.
Proof.
  rewrite WaveVal_ctor_value.
  pose proof (Z.mod_pos_bound X (2 ^ 5)).
  pose proof (Z.mod_pos_bound Y (2 ^ 10)).
  pose proof (Z.mod_pos_bound Z (2 ^ 5)).
  change (2 ^ 5) with 32 in *. change (2 ^ 10) with 1024 in *.
  change (2 ^ 15) with 32768. change (2 ^ 20) with 1048576. lia.
Qed.

(** An object is determined by its transmitted bytes when nothing is set
    above them. *)
Lemma transmitted_inj obj obj' :
  transmitted obj = transmitted obj' ->
  0 <= obj < 2 ^ 24 -> 0 <= obj' < 2 ^ 24 -> obj = obj'.
Proof.
  intros Heq Hobj Hobj'. apply Z.bits_inj'. intros i Hi.
  destruct (Z_lt_dec i 24) as [Hlt | Hge].
  - apply transmitted_testbit; [ exact Heq | lia ].
  - rewrite (testbit_small obj 24), (testbit_small obj' 24) by lia.
    reflexivity.
Qed.

Lemma set_field_range off w x obj n :
  0 <= off -> 0 <= w -> off + w <= n -> 0 <= obj < 2 ^ n ->
  0 <= set_field off w x obj < 2 ^ n.
Proof.
  intros Hoff Hw Hfit Hobj.
  assert (Hnonneg : 0 <= set_field off w x obj).
  { unfold set_field. apply Z.lor_nonneg. split.
    - apply Z.ldiff_nonneg. left. lia.
    - apply Z.shiftl_nonneg, Z.land_nonneg. right.
      rewrite Z.ones_equiv. pose proof (Z.pow_pos_nonneg 2 w). lia. }
  split; [ exact Hnonneg | ].
  destruct (Z.eq_dec (set_field off w x obj) 0) as [Hz | Hnz].
  - rewrite Hz. apply Z.pow_pos_nonneg; lia.
  - apply Z.log2_lt_pow2; [ lia | ].
    destruct (Z_lt_dec (Z.log2 (set_field off w x obj)) n) as [ | Hge ];
      [ assumption | exfalso ].
    pose proof (Z.bit_log2 (set_field off w x obj) ltac:(lia)) as Hbit.
    pose proof (Z.log2_nonneg (set_field off w x obj)) as Hlog.
    rewrite set_field_testbit_other in Hbit by lia.
    rewrite (testbit_small obj n) in Hbit by lia. discriminate.
Qed.

Lemma set3_range b0 b1 b2 this :
  0 <= this < 2 ^ 24 ->
  0 <= obj_set_byte 2 b2 (obj_set_byte 1 b1 (obj_set_byte 0 b0 this)) < 2 ^ 24.
Proof.
  intros Hthis. unfold obj_set_byte.
  repeat (apply set_field_range; [ lia | lia | simpl; lia | ]).
  exact Hthis.
Qed.

(** The bit-fields of [WaveVal] and of [PowerVal] cover the 32 bits of the
    object: once each member is initialised nothing is left of what the
    storage held, which is why [WaveVal.ctor] and [PowerVal.ctor] need no
    storage argument. *)
Lemma WaveVal_members_cover this X Y Z r :
  0 <= this < 2 ^ 32 ->
  set_field 20 12 r (set_field 15 5 Z (set_field 5 10 Y (set_field 0 5 X this)))
  = set_field 20 12 r (set_field 15 5 Z (set_field 5 10 Y (set_field 0 5 X 0))).
Proof.
  intros Hthis. apply Z.bits_inj'. intros i Hi.
  destruct (Z_lt_dec i 32) as [Hlt | Hge].
  - unfold set_field. Z.bitblast_core.
  - rewrite !set_field_testbit_other by lia.
    rewrite (testbit_small this 32) by lia. rewrite Z.testbit_0_l. reflexivity.
Qed.

Lemma PowerVal_members_cover this vB vA r :
  0 <= this < 2 ^ 32 ->
  set_field 22 10 r (set_field 11 11 vA (set_field 0 11 vB this))
  = set_field 22 10 r (set_field 11 11 vA (set_field 0 11 vB 0)).
Proof.
  intros Hthis. apply Z.bits_inj'. intros i Hi.
  destruct (Z_lt_dec i 32) as [Hlt | Hge].
  - unfold set_field. Z.bitblast_core.
  - rewrite !set_field_testbit_other by lia.
    rewrite (testbit_small this 32) by lia. rewrite Z.testbit_0_l. reflexivity.
Qed.

(** ** Brace initialisation from byte sequences *)

Lemma construct_from_bytes fresh i (bl : list (list byte)) :
  exists steps,
    construct fresh i (map WaveVal.from_bytes bl) = Some steps /\
    map WaveVal.to_bytes steps = map pad_or_truncate bl.
Proof.
  revert i. induction bl as [ | bytes bl IH ]; intros i; simpl.
  - exists []. split; reflexivity.
  - destruct (from_bytes_transmitted bytes (fresh i)) as (v & Hv & Hbytes & _).
    destruct (IH (S i)) as (vs & Hvs & Hmap).
    exists (v :: vs). rewrite Hv. simpl. rewrite Hvs. simpl.
    split; [ reflexivity | ]. rewrite Hbytes, Hmap. reflexivity.
Qed.

(** * The specification's claims *)

(** ** Waveform encoding *)

(** C1, as the specification states it, does not hold: the step
    [WaveVal(1, 9, 16)] of [AudioBase] is not transmitted as the bytes
    [{0xE1, 0x03, 0x00}]. *)
Lemma AudioBase_bytes_are_not_E1_03_00 :
  WaveVal.to_bytes (WaveVal.ctor 1 9 16) <> [xe1; x03; x00].
Proof. vm_compute. discriminate. Qed.

(** C1, amended: encoding [x=1, y=9, z=16] (the [AudioBase] step) and
    serialising it least significant byte first to three bytes yields
    [{0x21, 0x01, 0x08}]; in the three-byte value [x] occupies bits 0-4, [y]
    bits 5-14 and [z] bits 15-19, for this step and for every other.  The
    bytes [{0xE1, 0x03, 0x00}] are the first step of [GrainTouch], whose
    fields are [x=1, y=31, z=0]. *)
Theorem AudioBase_bytes :
  DGLABS.AudioBase = [WaveVal.ctor 1 9 16] /\
  WaveVal.to_bytes (WaveVal.ctor 1 9 16) = [x21; x01; x08] /\
  (forall X Y Z,
     le_value (WaveVal.to_bytes (WaveVal.ctor X Y Z)) =
       X mod 2 ^ 5 + 2 ^ 5 * (Y mod 2 ^ 10) + 2 ^ 15 * (Z mod 2 ^ 5)) /\
  (forall this, exists v,
     WaveVal.from_bytes [xe1; x03; x00] this = Some v /\ xyz v = (1, 31, 0)).
Proof.
  split; [ reflexivity | ]. split; [ vm_compute; reflexivity | ]. split.
  - intros X Y Z. unfold WaveVal.to_bytes.
    rewrite le_value_transmitted, get_field_div_mod by lia.
    pose proof (WaveVal_ctor_range X Y Z) as Hr.
    rewrite <- WaveVal_ctor_value.
    change (2 ^ 0) with 1. rewrite Z.div_1_r.
    apply Z.mod_small. change (2 ^ 20) with 1048576 in Hr.
    change (2 ^ 24) with 16777216. lia.
  - intros this.
    destruct (from_bytes_transmitted [xe1; x03; x00] this) as (v & Hv & Hb & _).
    exists v. split; [ exact Hv | ].
    assert (Heq : transmitted v = transmitted 993) by (exact Hb).
    rewrite (transmitted_xyz v 993 Heq). reflexivity.
Qed.

(** C2: for [x] in 0..31, [y] in 0..1023 and [z] in 0..31, decoding the
    three transmitted bytes of the encoded step gives back that step:
    the same three bytes, hence the same bit at each of the 24 positions of
    the wire value, and the same [x], [y] and [z].  This holds whatever the
    storage the decoded step is built in held before; when the fourth,
    untransmitted byte of that storage is zero the two objects are equal as
    a whole. *)
Theorem WaveVal_round_trip (x y z this : Z)
  (Hx : 0 <= x < 32) (Hy : 0 <= y < 1024) (Hz : 0 <= z < 32) :
  exists v,
    WaveVal.from_bytes (WaveVal.to_bytes (WaveVal.ctor x y z)) this = Some v /\
    WaveVal.to_bytes v = WaveVal.to_bytes (WaveVal.ctor x y z) /\
    (forall i, 0 <= i < 24 ->
       Z.testbit v i = Z.testbit (WaveVal.ctor x y z) i) /\
    xyz v = xyz (WaveVal.ctor x y z) /\
    xyz v = (x, y, z) /\
    (0 <= this < 2 ^ 24 -> v = WaveVal.ctor x y z).
Proof.
  set (e := WaveVal.ctor x y z).
  destruct (from_bytes_spec (WaveVal.to_bytes e) this)
    as (b0 & b1 & b2 & Hnorm & Hres).
  rewrite pad_or_truncate_id in Hnorm by reflexivity.
  eexists. split; [ exact Hres | ].
  assert (Hbytes : transmitted
            (obj_set_byte 2 b2 (obj_set_byte 1 b1 (obj_set_byte 0 b0 this)))
          = transmitted e).
  { rewrite transmitted_set3. symmetry. exact Hnorm. }
  assert (Hfields : xyz (obj_set_byte 2 b2 (obj_set_byte 1 b1 (obj_set_byte 0 b0 this)))
                    = xyz e).
  { apply transmitted_xyz. exact Hbytes. }
  split; [ exact Hbytes | ]. split.
  { intros i Hi. apply transmitted_testbit; assumption. }
  split; [ exact Hfields | ]. split.
  { rewrite Hfields. unfold xyz.
    destruct (WaveVal_ctor_fields x y z) as (Ex & Ey & Ez & _).
    fold e in Ex, Ey, Ez. rewrite Ex, Ey, Ez.
    rewrite !Z.mod_small by (simpl; lia). reflexivity. }
  intros Hthis. apply transmitted_inj; [ exact Hbytes | | ].
  - apply set3_range. exact Hthis.
  - pose proof (WaveVal_ctor_range x y z) as Hr. fold e in Hr.
    change (2 ^ 20) with 1048576 in Hr. change (2 ^ 24) with 16777216. lia.
Qed.

Lemma WaveVal_round_trip_witness :
  (0 <= 1 < 32 /\ 0 <= 9 < 1024 /\ 0 <= 16 < 32) /\
  exists v,
    WaveVal.from_bytes (WaveVal.to_bytes (WaveVal.ctor 1 9 16)) 4278190080
      = Some v /\
    WaveVal.to_bytes v = WaveVal.to_bytes (WaveVal.ctor 1 9 16) /\
    (forall i, 0 <= i < 24 ->
       Z.testbit v i = Z.testbit (WaveVal.ctor 1 9 16) i) /\
    xyz v = xyz (WaveVal.ctor 1 9 16) /\
    xyz v = (1, 9, 16) /\
    (0 <= 4278190080 < 2 ^ 24 -> v = WaveVal.ctor 1 9 16).
Proof.
  split; [ lia | ].
  apply (WaveVal_round_trip 1 9 16 4278190080); lia.
Defined.

(** C6: for [X] in 0..255, [Y] in 0..65535 and [Z] in 0..255, the step
    built from [(X, Y, Z)] stores [x = X mod 32], [y = Y mod 1024] and
    [z = Z mod 32], with all twelve reserved bits zero; [Z = 37] is stored
    as 5. *)
Theorem WaveVal_ctor_wraps (X Y Z : BinNums.Z)
  (HX : 0 <= X <= 255) (HY : 0 <= Y <= 65535) (HZ : 0 <= Z <= 255) :
  WaveVal.x (WaveVal.ctor X Y Z) = X mod 32 /\
  WaveVal.y (WaveVal.ctor X Y Z) = Y mod 1024 /\
  WaveVal.z (WaveVal.ctor X Y Z) = Z mod 32 /\
  WaveVal.rsvd (WaveVal.ctor X Y Z) = 0 /\
  WaveVal.z (WaveVal.ctor X Y 37) = 5.
Proof.
  destruct (WaveVal_ctor_fields X Y Z) as (Ex & Ey & Ez & Er).
  destruct (WaveVal_ctor_fields X Y 37) as (_ & _ & Ez' & _).
  repeat split; assumption.
Qed.

Lemma WaveVal_ctor_wraps_witness :
  (0 <= 33 <= 255 /\ 0 <= 1030 <= 65535 /\ 0 <= 37 <= 255) /\
  WaveVal.x (WaveVal.ctor 33 1030 37) = 33 mod 32 /\
  WaveVal.y (WaveVal.ctor 33 1030 37) = 1030 mod 1024 /\
  WaveVal.z (WaveVal.ctor 33 1030 37) = 37 mod 32 /\
  WaveVal.rsvd (WaveVal.ctor 33 1030 37) = 0 /\
  WaveVal.z (WaveVal.ctor 33 1030 37) = 5.
Proof.
  split; [ lia | ].
  apply (WaveVal_ctor_wraps 33 1030 37); lia.
Defined.

(** C5: the byte constructor has a result for a byte sequence of any
    length, and that result is the one it has for the sequence right-padded
    with zero bytes and cut after three bytes; its transmitted bytes are
    those three.  So [{}] and [{0xE1}] decode, to steps transmitted as
    [{0, 0, 0}] and [{0xE1, 0, 0}], and [{1, 2, 3, 4, 5}] decodes as
    [{1, 2, 3}] does. *)
Theorem from_bytes_total :
  (forall bytes this, exists v,
     WaveVal.from_bytes bytes this = Some v /\
     WaveVal.from_bytes (pad_or_truncate bytes) this = Some v /\
     WaveVal.to_bytes v = pad_or_truncate bytes) /\
  (forall this, exists v,
     WaveVal.from_bytes [] this = Some v /\
     WaveVal.to_bytes v = [x00; x00; x00]) /\
  (forall this, exists v,
     WaveVal.from_bytes [xe1] this = Some v /\
     WaveVal.to_bytes v = [xe1; x00; x00]) /\
  (forall this this', exists v v',
     WaveVal.from_bytes [x01; x02; x03; x04; x05] this = Some v /\
     WaveVal.from_bytes [x01; x02; x03] this' = Some v' /\
     WaveVal.to_bytes v = WaveVal.to_bytes v' /\
     xyz v = xyz v') /\
  (forall this,
     WaveVal.from_bytes [x01; x02; x03; x04; x05] this =
     WaveVal.from_bytes [x01; x02; x03] this).
Proof.
  assert (Hgen : forall bytes this, exists v,
     WaveVal.from_bytes bytes this = Some v /\
     WaveVal.from_bytes (pad_or_truncate bytes) this = Some v /\
     WaveVal.to_bytes v = pad_or_truncate bytes).
  { intros bytes this.
    destruct (from_bytes_spec bytes this) as (b0 & b1 & b2 & Hnorm & Hres).
    destruct (from_bytes_spec (pad_or_truncate bytes) this)
      as (c0 & c1 & c2 & Hnorm' & Hres').
    rewrite pad_or_truncate_id in Hnorm' by apply pad_or_truncate_length.
    rewrite Hnorm in Hnorm'. injection Hnorm' as <- <- <-.
    eexists. split; [ exact Hres | ]. split; [ exact Hres' | ].
    unfold WaveVal.to_bytes. rewrite transmitted_set3. symmetry. exact Hnorm. }
  split; [ exact Hgen | ]. split; [ | split; [ | split ] ].
  - intros this. destruct (Hgen [] this) as (v & Hv & _ & Hb).
    exists v. split; assumption.
  - intros this. destruct (Hgen [xe1] this) as (v & Hv & _ & Hb).
    exists v. split; assumption.
  - intros this this'.
    destruct (Hgen [x01; x02; x03; x04; x05] this) as (v & Hv & _ & Hb).
    destruct (Hgen [x01; x02; x03] this') as (v' & Hv' & _ & Hb').
    assert (Hsame : WaveVal.to_bytes v = WaveVal.to_bytes v')
      by (rewrite Hb, Hb'; reflexivity).
    exists v, v'. repeat split; try assumption.
    apply transmitted_xyz. exact Hsame.
  - intros this.
    destruct (Hgen [x01; x02; x03; x04; x05] this) as (v & Hv & Hv' & _).
    rewrite Hv. symmetry. exact Hv'.
Qed.

(** C10: for every byte sequence, the transmitted bytes of the step
    decoded from it are the sequence right-padded with zero bytes or
    truncated to three bytes.  On a three-byte buffer decoding and then
    serialising is the identity, the four reserved bits of the third byte
    included: they are stored as received, not cleared. *)
Theorem to_bytes_from_bytes :
  (forall bytes this, exists v,
     WaveVal.from_bytes bytes this = Some v /\
     WaveVal.to_bytes v = pad_or_truncate bytes) /\
  (forall b0 b1 b2 this, exists v,
     WaveVal.from_bytes [b0; b1; b2] this = Some v /\
     WaveVal.to_bytes v = [b0; b1; b2] /\
     get_field 20 4 v = byte_to_Z b2 / 2 ^ 4).
Proof.
  split.
  - intros bytes this.
    destruct (from_bytes_transmitted bytes this) as (v & Hv & Hb & _).
    exists v. split; assumption.
  - intros b0 b1 b2 this.
    destruct (from_bytes_transmitted [b0; b1; b2] this) as (v & Hv & Hb & _).
    exists v. split; [ exact Hv | ]. split; [ exact Hb | ].
    assert (H2 : obj_byte v 2 = b2).
    { unfold WaveVal.to_bytes, transmitted in Hb. simpl in Hb.
      injection Hb as _ _ H2. exact H2. }
    rewrite <- H2. unfold obj_byte.
    rewrite byte_to_of_Z by (apply get_field_range; lia).
    rewrite !get_field_div_mod by lia.
    change (8 * Z.of_nat 2) with 16.
    change (2 ^ 20) with (2 ^ 16 * 2 ^ 4).
    rewrite <- Z.div_div by lia.
    set (q := v / 2 ^ 16).
    change (2 ^ 8) with 256. change (2 ^ 4) with 16.
    Z.div_mod_to_equations. lia.
Qed.

(** ** Presets *)

(** C7: [GrainTouch] has exactly 12 steps, [MediumWave] exactly 15 and
    [SlowWave] exactly 18, each in the order the presets are written:
    [GrainTouch] as the byte triples it is built from, the two waves as
    their [(x, y, z)] parameters. *)
Theorem preset_integrity :
  (forall fresh, exists steps,
     DGLABS.GrainTouch fresh = Some steps /\
     length steps = 12%nat /\
     map WaveVal.to_bytes steps =
       [[xe1; x03; x00]; [xe1; x03; x0a]; [xa1; x04; x0a]; [xc1; x05; x0a];
        [x01; x07; x00]; [x21; x01; x0a]; [x61; x01; x0a]; [xa1; x01; x0a];
        [x01; x02; x00]; [x01; x02; x0a]; [x81; x02; x0a]; [x21; x03; x0a]]) /\
  (length LTX4JAY.MediumWave = 15%nat /\
   map xyz LTX4JAY.MediumWave =
     [(1, 9, 4); (1, 9, 4); (1, 9, 6); (1, 9, 10); (1, 9, 12);
      (1, 9, 17); (1, 9, 20); (1, 9, 20); (1, 9, 20); (1, 9, 20);
      (1, 9, 20); (1, 9, 17); (1, 9, 12); (1, 9, 10); (1, 9, 6)]) /\
  (length LTX4JAY.SlowWave = 18%nat /\
   map xyz LTX4JAY.SlowWave =
     [(1, 26, 8); (1, 26, 8); (1, 24, 10); (1, 22, 12); (1, 20, 14);
      (1, 18, 16); (1, 16, 18); (1, 16, 22); (1, 16, 24); (1, 12, 24);
      (1, 12, 24); (1, 16, 24); (1, 16, 22); (1, 16, 18); (1, 18, 16);
      (1, 20, 14); (1, 22, 12); (1, 24, 10)]).
Proof.
  split; [ | split; split; vm_compute; reflexivity ].
  intros fresh. unfold DGLABS.GrainTouch.
  match goal with
  | |- context [ construct fresh 0 ?ctors ] =>
      change ctors with
        (map WaveVal.from_bytes
           [[xe1; x03; x00]; [xe1; x03; x0a]; [xa1; x04; x0a]; [xc1; x05; x0a];
            [x01; x07; x00]; [x21; x01; x0a]; [x61; x01; x0a]; [xa1; x01; x0a];
            [x01; x02; x00]; [x01; x02; x0a]; [x81; x02; x0a]; [x21; x03; x0a]])
  end.
  match goal with
  | |- context [ map WaveVal.from_bytes ?bl ] =>
      destruct (construct_from_bytes fresh 0 bl) as (steps & Hsteps & Hmap)
  end.
  exists steps. split; [ exact Hsteps | ]. split.
  - apply (f_equal (@length _)) in Hmap. rewrite !length_map in Hmap.
    exact Hmap.
  - exact Hmap.
Qed.

(** ** Power encoding *)

(** Levels below 100 are scaled by [step] in every configuration in which
    the scaled level fits the 11-bit channel field. *)
Lemma PowerVal_in_range_fits cfg a b :
  0 <= a < 100 -> 0 <= b < 100 ->
  99 * CFGval.step cfg < 2 ^ 11 ->
  PowerVal.A (PowerVal.ctor cfg a b) = a * CFGval.step cfg /\
  PowerVal.B (PowerVal.ctor cfg a b) = b * CFGval.step cfg /\
  PowerVal.rsvd (PowerVal.ctor cfg a b) = 0.
Proof.
  intros Ha Hb Hfit. pose proof (CFGval_step_range cfg) as Hs.
  destruct (PowerVal_ctor_fields cfg a b) as (EA & EB & Er).
  rewrite EA, EB, Er.
  rewrite (PowerVal_channel_fits cfg a), (PowerVal_channel_fits cfg b).
  - destruct (Z.ltb_spec a 100), (Z.ltb_spec b 100); lia.
  - change (2 ^ 8) with 256. lia.
  - destruct (Z.ltb_spec b 100); [ nia | lia ].
  - change (2 ^ 8) with 256. lia.
  - destruct (Z.ltb_spec a 100); [ nia | lia ].
Qed.

(** Levels of 100 and more are scaled as 100 in every configuration in
    which [100 * step] fits the 11-bit channel field. *)
Lemma PowerVal_saturates_fits cfg a b :
  100 <= a <= 255 ->
  100 * CFGval.step cfg < 2 ^ 11 ->
  PowerVal.A (PowerVal.ctor cfg a b) = 100 * CFGval.step cfg.
Proof.
  intros Ha Hfit.
  destruct (PowerVal_ctor_fields cfg a b) as (EA & _ & _).
  rewrite EA, (PowerVal_channel_fits cfg a).
  - destruct (Z.ltb_spec a 100); [ lia | reflexivity ].
  - change (2 ^ 8) with 256. lia.
  - destruct (Z.ltb_spec a 100); [ lia | exact Hfit ].
Qed.

(** The channel fields never exceed [100 * step]. *)
Lemma PowerVal_channel_bound cfg a b :
  0 <= PowerVal.A (PowerVal.ctor cfg a b) <= 100 * CFGval.step cfg /\
  0 <= PowerVal.B (PowerVal.ctor cfg a b) <= 100 * CFGval.step cfg.
Proof.
  destruct (PowerVal_ctor_fields cfg a b) as (EA & EB & _).
  rewrite EA, EB.
  assert (Hu : forall v, 0 <= uint8 v)
    by (intros v; unfold uint8; apply Z.mod_pos_bound; lia).
  destruct (steps_bounds cfg (uint8 a) (Hu a)) as [Ba _].
  destruct (steps_bounds cfg (uint8 b) (Hu b)) as [Bb _].
  pose proof (Z.mod_pos_bound (PowerVal.steps cfg (uint8 a)) (2 ^ 11)).
  pose proof (Z.mod_pos_bound (PowerVal.steps cfg (uint8 b)) (2 ^ 11)).
  pose proof (Z.mod_le (PowerVal.steps cfg (uint8 a)) (2 ^ 11)).
  pose proof (Z.mod_le (PowerVal.steps cfg (uint8 b)) (2 ^ 11)).
  lia.
Qed.

(** C3, as the specification states it, does not hold in every
    configuration the [step] field can hold: with [step = 21] the level
    [a = 99] is encoded as channel A = 31, not as [99 * 21 = 2079], which
    does not fit the 11-bit field. *)
Lemma PowerVal_in_range_fails_at_step_21 :
  CFGval.step (CFGval.init 21 2000 0) = 21 /\
  (0 <= 99 < 100 /\ 0 <= 97 < 100) /\
  PowerVal.A (PowerVal.ctor (CFGval.init 21 2000 0) 99 97) = 31 /\
  PowerVal.A (PowerVal.ctor (CFGval.init 21 2000 0) 99 97)
    <> 99 * CFGval.step (CFGval.init 21 2000 0).
Proof.
  split; [ vm_compute; reflexivity | ]. split; [ lia | ].
  split; vm_compute; [ reflexivity | discriminate ].
Qed.

(** C3, amended: for [a] and [b] in 0..99 and every configuration, the
    frame built by the power encoder has channel A equal to
    [(a * step) mod 2^11], channel B equal to [(b * step) mod 2^11] and its
    ten reserved bits zero; channel A is [a * step] and channel B is
    [b * step] whenever [99 * step < 2048], as for [gCoyoteCfg], whose step
    is 7. *)
Theorem PowerVal_in_range (cfg a b : Z) (Ha : 0 <= a < 100) (Hb : 0 <= b < 100) :
  PowerVal.A (PowerVal.ctor cfg a b) = (a * CFGval.step cfg) mod 2 ^ 11 /\
  PowerVal.B (PowerVal.ctor cfg a b) = (b * CFGval.step cfg) mod 2 ^ 11 /\
  PowerVal.rsvd (PowerVal.ctor cfg a b) = 0 /\
  (99 * CFGval.step cfg < 2 ^ 11 ->
   PowerVal.A (PowerVal.ctor cfg a b) = a * CFGval.step cfg /\
   PowerVal.B (PowerVal.ctor cfg a b) = b * CFGval.step cfg) /\
  (CFGval.step gCoyoteCfg = 7 /\
   PowerVal.A (PowerVal.ctor gCoyoteCfg a b) = a * 7 /\
   PowerVal.B (PowerVal.ctor gCoyoteCfg a b) = b * 7).
Proof.
  pose proof (CFGval_step_range cfg) as Hs. change (2 ^ 8) with 256 in Hs.
  destruct (PowerVal_ctor_fields cfg a b) as (EA & EB & Er).
  assert (Hlevel : forall v, 0 <= v < 100 ->
            PowerVal.steps cfg (uint8 v) = v * CFGval.step cfg).
  { intros v Hv. unfold uint8.
    rewrite (Z.mod_small v) by (change (2 ^ 8) with 256; lia).
    destruct (steps_bounds cfg v) as [_ E]; [ lia | ]. rewrite E.
    destruct (Z.ltb_spec v 100); [ reflexivity | lia ]. }
  rewrite Hlevel in EA, EB by assumption.
  split; [ exact EA | ]. split; [ exact EB | ]. split; [ exact Er | ]. split.
  - intros Hfit. rewrite EA, EB. split; apply Z.mod_small; nia.
  - split; [ vm_compute; reflexivity | ].
    destruct (PowerVal_in_range_fits gCoyoteCfg a b Ha Hb) as (E7A & E7B & _);
      [ vm_compute; reflexivity | ].
    exact (conj E7A E7B).
Qed.

Lemma PowerVal_in_range_witness :
  (0 <= 99 < 100 /\ 0 <= 42 < 100) /\
  99 * CFGval.step (CFGval.init 20 2000 0) < 2 ^ 11 /\
  PowerVal.A (PowerVal.ctor (CFGval.init 20 2000 0) 99 42) = 1980 /\
  PowerVal.B (PowerVal.ctor (CFGval.init 20 2000 0) 99 42) = 840 /\
  PowerVal.rsvd (PowerVal.ctor (CFGval.init 20 2000 0) 99 42) = 0 /\
  PowerVal.A (PowerVal.ctor gCoyoteCfg 99 42) = 99 * 7 /\
  PowerVal.B (PowerVal.ctor gCoyoteCfg 99 42) = 42 * 7.
Proof.
  assert (Ha : 0 <= 99 < 100) by lia.
  assert (Hb : 0 <= 42 < 100) by lia.
  assert (Hfit : 99 * CFGval.step (CFGval.init 20 2000 0) < 2 ^ 11)
    by (vm_compute; reflexivity).
  destruct (PowerVal_in_range (CFGval.init 20 2000 0) 99 42 Ha Hb)
    as (_ & _ & Er & Hexact & _ & E7A & E7B).
  destruct (Hexact Hfit) as [EA EB].
  split; [ exact (conj Ha Hb) | ]. split; [ exact Hfit | ].
  split; [ rewrite EA; vm_compute; reflexivity | ].
  split; [ rewrite EB; vm_compute; reflexivity | ].
  split; [ exact Er | ]. split; [ exact E7A | exact E7B ].
Defined.

(** C4, as the specification states it, does not hold in every
    configuration the [step] field can hold: with [step = 21] the level
    [a = 100] is encoded as channel A = 52, not as [100 * 21 = 2100], which
    does not fit the 11-bit field. *)
Lemma PowerVal_saturates_fails_at_step_21 :
  CFGval.step (CFGval.init 21 2000 0) = 21 /\
  100 <= 100 <= 255 /\
  PowerVal.A (PowerVal.ctor (CFGval.init 21 2000 0) 100 0) = 52 /\
  PowerVal.A (PowerVal.ctor (CFGval.init 21 2000 0) 100 0)
    <> 100 * CFGval.step (CFGval.init 21 2000 0).
Proof.
  split; [ vm_compute; reflexivity | ]. split; [ lia | ].
  split; vm_compute; [ reflexivity | discriminate ].
Qed.

(** C4, amended: for [a] in 100..255, any [b] and every configuration the
    power encoder saturates: the over-range level is treated as exactly
    100, not as an error, and channel A is [(100 * step) mod 2^11]; it is
    [100 * step] whenever [100 * step < 2048], as for [gCoyoteCfg], whose
    step is 7 and whose saturated channel value is 700. *)
Theorem PowerVal_saturates (cfg a b : Z) (Ha : 100 <= a <= 255) :
  PowerVal.A (PowerVal.ctor cfg a b) = PowerVal.A (PowerVal.ctor cfg 100 b) /\
  PowerVal.A (PowerVal.ctor cfg a b) = (100 * CFGval.step cfg) mod 2 ^ 11 /\
  (100 * CFGval.step cfg < 2 ^ 11 ->
   PowerVal.A (PowerVal.ctor cfg a b) = 100 * CFGval.step cfg) /\
  (CFGval.step gCoyoteCfg = 7 /\
   PowerVal.A (PowerVal.ctor gCoyoteCfg a b) = 700).
Proof.
  pose proof (CFGval_step_range cfg) as Hs. change (2 ^ 8) with 256 in Hs.
  assert (Hlevel : forall v, 100 <= v <= 255 ->
            PowerVal.steps cfg (uint8 v) = 100 * CFGval.step cfg).
  { intros v Hv. unfold uint8.
    rewrite (Z.mod_small v) by (change (2 ^ 8) with 256; lia).
    destruct (steps_bounds cfg v) as [_ E]; [ lia | ]. rewrite E.
    destruct (Z.ltb_spec v 100); [ lia | reflexivity ]. }
  destruct (PowerVal_ctor_fields cfg a b) as (EA & _ & _).
  destruct (PowerVal_ctor_fields cfg 100 b) as (EA' & _ & _).
  rewrite Hlevel in EA, EA' by lia.
  split; [ rewrite EA, EA'; reflexivity | ]. split; [ exact EA | ]. split.
  - intros Hfit. rewrite EA. apply Z.mod_small. lia.
  - split; [ vm_compute; reflexivity | ].
    rewrite (PowerVal_saturates_fits gCoyoteCfg a b Ha);
      vm_compute; reflexivity.
Qed.

Lemma PowerVal_saturates_witness :
  100 <= 255 <= 255 /\
  100 * CFGval.step (CFGval.init 20 2000 0) < 2 ^ 11 /\
  PowerVal.A (PowerVal.ctor (CFGval.init 20 2000 0) 255 3)
    = PowerVal.A (PowerVal.ctor (CFGval.init 20 2000 0) 100 3) /\
  PowerVal.A (PowerVal.ctor (CFGval.init 20 2000 0) 255 3) = 2000 /\
  PowerVal.A (PowerVal.ctor gCoyoteCfg 255 3) = 700.
Proof.
  assert (Ha : 100 <= 255 <= 255) by lia.
  assert (Hfit : 100 * CFGval.step (CFGval.init 20 2000 0) < 2 ^ 11)
    by (vm_compute; reflexivity).
  destruct (PowerVal_saturates (CFGval.init 20 2000 0) 255 3 Ha)
    as (Hsat & _ & Hexact & _ & E700).
  split; [ exact Ha | ]. split; [ exact Hfit | ]. split; [ exact Hsat | ].
  split; [ rewrite (Hexact Hfit); vm_compute; reflexivity | exact E700 ].
Defined.

(** C8: [gCoyoteCfg] has [step = 7] and [maxPwr = 2000], and with it the
    power levels [a = 25], [b = 25] are encoded as channel A = 175 and
    channel B = 175. *)
Theorem PowerVal_25_25 :
  CFGval.step gCoyoteCfg = 7 /\
  CFGval.maxPwr gCoyoteCfg = 2000 /\
  PowerVal.A (PowerVal.ctor gCoyoteCfg 25 25) = 175 /\
  PowerVal.B (PowerVal.ctor gCoyoteCfg 25 25) = 175.
Proof. repeat split; vm_compute; reflexivity. Qed.

(** C9: two configurations with the same [step] give the same frame for
    every pair of levels, whatever their [maxPwr]; channels A and B are
    bounded by [100 * step], a bound that is reached at level 100 when it
    fits the field, and that is 700 for [gCoyoteCfg]. *)
Theorem PowerVal_ignores_maxPwr (cfg1 cfg2 a b : Z)
  (Hstep : CFGval.step cfg1 = CFGval.step cfg2) :
  PowerVal.ctor cfg1 a b = PowerVal.ctor cfg2 a b /\
  0 <= PowerVal.A (PowerVal.ctor cfg1 a b) <= 100 * CFGval.step cfg1 /\
  0 <= PowerVal.B (PowerVal.ctor cfg1 a b) <= 100 * CFGval.step cfg1 /\
  (100 * CFGval.step cfg1 < 2 ^ 11 ->
   PowerVal.A (PowerVal.ctor cfg2 100 b) = 100 * CFGval.step cfg1 /\
   PowerVal.B (PowerVal.ctor cfg2 a 100) = 100 * CFGval.step cfg1) /\
  100 * CFGval.step gCoyoteCfg = 700.
Proof.
  split; [ | split; [ | split; [ | split ] ] ].
  - unfold PowerVal.ctor, PowerVal.steps. rewrite Hstep. reflexivity.
  - apply PowerVal_channel_bound.
  - apply PowerVal_channel_bound.
  - intros Hfit. rewrite Hstep in *. split.
    + apply PowerVal_saturates_fits; [ lia | exact Hfit ].
    + destruct (PowerVal_ctor_fields cfg2 a 100) as (_ & EB & _).
      rewrite EB, (PowerVal_channel_fits cfg2 100); [ reflexivity | lia | ].
      exact Hfit.
  - reflexivity.
Qed.

Lemma PowerVal_ignores_maxPwr_witness :
  CFGval.step gCoyoteCfg = CFGval.step (CFGval.init 7 500 0) /\
  PowerVal.ctor gCoyoteCfg 100 25 = PowerVal.ctor (CFGval.init 7 500 0) 100 25 /\
  0 <= PowerVal.A (PowerVal.ctor gCoyoteCfg 100 25)
    <= 100 * CFGval.step gCoyoteCfg /\
  0 <= PowerVal.B (PowerVal.ctor gCoyoteCfg 100 25)
    <= 100 * CFGval.step gCoyoteCfg /\
  (100 * CFGval.step gCoyoteCfg < 2 ^ 11 ->
   PowerVal.A (PowerVal.ctor (CFGval.init 7 500 0) 100 25)
     = 100 * CFGval.step gCoyoteCfg /\
   PowerVal.B (PowerVal.ctor (CFGval.init 7 500 0) 100 100)
     = 100 * CFGval.step gCoyoteCfg) /\
  100 * CFGval.step gCoyoteCfg = 700.
Proof.
  split; [ reflexivity | ].
  apply (PowerVal_ignores_maxPwr gCoyoteCfg (CFGval.init 7 500 0) 100 25).
  reflexivity.
Defined.

(** * Further properties of the encoders *)

(** ** Helper facts *)

Lemma uint8_range v : 0 <= uint8 v < 2 ^ 8.
Proof. unfold uint8. apply Z.mod_pos_bound. lia. Qed.

Lemma steps_min cfg v :
  0 <= v -> PowerVal.steps cfg v = Z.min v 100 * CFGval.step cfg.
Proof.
  intros Hv. destruct (steps_bounds cfg v Hv) as [_ Heq]. rewrite Heq.
  unfold PowerVal.MAXPOWER. destruct (Z.ltb_spec v 100); f_equal; lia.
Qed.

(** Channel B in bits 0-10, channel A in bits 11-21, nothing above. *)
Lemma PowerVal_ctor_value cfg a b :
  PowerVal.ctor cfg a b =
    PowerVal.steps cfg (uint8 b) mod 2 ^ 11 +
    2 ^ 11 * (PowerVal.steps cfg (uint8 a) mod 2 ^ 11).
Proof.
  unfold PowerVal.ctor.
  set (sa := PowerVal.steps cfg (uint8 a)).
  set (sb := PowerVal.steps cfg (uint8 b)).
  transitivity
    (Z.lor (Z.land sb (Z.ones 11)) (Z.shiftl (Z.land sa (Z.ones 11)) 11)).
  - unfold set_field. Z.bitblast.
  - rewrite Z.or_to_plus by Z.bitblast.
    rewrite Z.shiftl_mul_pow2, !Z.land_ones by lia. lia.
Qed.

Lemma PowerVal_ctor_range cfg a b : 0 <= PowerVal.ctor cfg a b < 2 ^ 22.
Proof.
  rewrite PowerVal_ctor_value.
  pose proof (Z.mod_pos_bound (PowerVal.steps cfg (uint8 a)) (2 ^ 11)).
  pose proof (Z.mod_pos_bound (PowerVal.steps cfg (uint8 b)) (2 ^ 11)).
  change (2 ^ 11) with 2048 in *. change (2 ^ 22) with 4194304. lia.
Qed.

(** Three bytes are the transmitted bytes of the integer they denote. *)
Lemma transmitted_le_value b0 b1 b2 :
  transmitted (le_value [b0; b1; b2]) = [b0; b1; b2].
Proof.
  pose proof (byte_to_Z_range b0) as H0.
  pose proof (byte_to_Z_range b1) as H1.
  pose proof (byte_to_Z_range b2) as H2.
  unfold transmitted, obj_byte, le_value. simpl.
  rewrite !get_field_div_mod by lia.
  change (2 ^ (8 * Z.of_nat 0)) with 1.
  change (2 ^ (8 * Z.of_nat 1)) with 256.
  change (2 ^ (8 * Z.of_nat 2)) with 65536.
  change (2 ^ 8) with 256 in *.
  set (n0 := byte_to_Z b0) in *. set (n1 := byte_to_Z b1) in *.
  set (n2 := byte_to_Z b2) in *.
  assert (E0 : (n0 + 256 * (n1 + 256 * (n2 + 256 * 0))) / 1 mod 256 = n0)
    by (Z.div_mod_to_equations; lia).
  assert (E1 : (n0 + 256 * (n1 + 256 * (n2 + 256 * 0))) / 256 mod 256 = n1)
    by (Z.div_mod_to_equations; lia).
  assert (E2 : (n0 + 256 * (n1 + 256 * (n2 + 256 * 0))) / 65536 mod 256 = n2)
    by (Z.div_mod_to_equations; lia).
  rewrite E0, E1, E2. subst n0 n1 n2. rewrite !byte_of_to_Z. reflexivity.
Qed.

Lemma le_value_range3 b0 b1 b2 : 0 <= le_value [b0; b1; b2] < 2 ^ 24.
Proof.
  pose proof (byte_to_Z_range b0). pose proof (byte_to_Z_range b1).
  pose proof (byte_to_Z_range b2). unfold le_value. simpl.
  change (2 ^ 8) with 256 in *. change (2 ^ 24) with 16777216. lia.
Qed.

(** ** Power frames in any configuration *)

(** X1: in every configuration each channel holds
    [min(level, 100) * step] reduced modulo [2^11], the level being the
    argument as a [uint8_t], and the reserved bits are zero. *)
Theorem PowerVal_channels cfg a b :
  PowerVal.A (PowerVal.ctor cfg a b)
    = (Z.min (uint8 a) 100 * CFGval.step cfg) mod 2 ^ 11 /\
  PowerVal.B (PowerVal.ctor cfg a b)
    = (Z.min (uint8 b) 100 * CFGval.step cfg) mod 2 ^ 11 /\
  PowerVal.rsvd (PowerVal.ctor cfg a b) = 0.
Proof.
  destruct (PowerVal_ctor_fields cfg a b) as (EA & EB & Er).
  rewrite EA, EB, Er.
  rewrite !steps_min by apply uint8_range. auto.
Qed.

(** X2: nothing guards the 11-bit channel field: in a configuration with
    [100 * step >= 2048] a level of 100 or more is encoded as
    [100 * step mod 2048], at least 2048 below the power asked for. *)
Theorem PowerVal_channel_wraps cfg a b
  (Hstep : 2 ^ 11 <= 100 * CFGval.step cfg) (Ha : 100 <= a <= 255) :
  PowerVal.A (PowerVal.ctor cfg a b) = (100 * CFGval.step cfg) mod 2 ^ 11 /\
  PowerVal.A (PowerVal.ctor cfg a b) <= 100 * CFGval.step cfg - 2 ^ 11.
Proof.
  destruct (PowerVal_channels cfg a b) as (EA & _ & _). rewrite EA.
  unfold uint8. rewrite (Z.mod_small a) by (change (2 ^ 8) with 256; lia).
  replace (Z.min a 100) with 100 by lia.
  split; [ reflexivity | ].
  change (2 ^ 11) with 2048 in *. Z.div_mod_to_equations. lia.
Qed.

Lemma PowerVal_channel_wraps_witness :
  (2 ^ 11 <= 100 * CFGval.step (CFGval.init 21 2000 0) /\ 100 <= 100 <= 255) /\
  PowerVal.A (PowerVal.ctor (CFGval.init 21 2000 0) 100 0)
    = (100 * CFGval.step (CFGval.init 21 2000 0)) mod 2 ^ 11 /\
  PowerVal.A (PowerVal.ctor (CFGval.init 21 2000 0) 100 0)
    <= 100 * CFGval.step (CFGval.init 21 2000 0) - 2 ^ 11.
Proof.
  split; [ vm_compute; split; [ | split ]; discriminate | ].
  apply (PowerVal_channel_wraps (CFGval.init 21 2000 0) 100 0).
  - vm_compute. discriminate.
  - lia.
Defined.

(** X3: [maxPwr] is not enforced: in a configuration whose [maxPwr] is
    below [100 * step] (and [100 * step] fits the field), every level of 100
    or more is encoded as a channel A value above [maxPwr]. *)
Theorem PowerVal_exceeds_maxPwr cfg a b
  (Hfit : 100 * CFGval.step cfg < 2 ^ 11)
  (Hmax : CFGval.maxPwr cfg < 100 * CFGval.step cfg)
  (Ha : 100 <= a <= 255) :
  CFGval.maxPwr cfg < PowerVal.A (PowerVal.ctor cfg a b).
Proof.
  rewrite (PowerVal_saturates_fits cfg a b) by assumption. exact Hmax.
Qed.

Lemma PowerVal_exceeds_maxPwr_witness :
  (100 * CFGval.step (CFGval.init 7 500 0) < 2 ^ 11 /\
   CFGval.maxPwr (CFGval.init 7 500 0)
     < 100 * CFGval.step (CFGval.init 7 500 0) /\
   100 <= 200 <= 255) /\
  CFGval.maxPwr (CFGval.init 7 500 0)
    < PowerVal.A (PowerVal.ctor (CFGval.init 7 500 0) 200 0).
Proof.
  split; [ vm_compute; repeat split; discriminate | ].
  apply (PowerVal_exceeds_maxPwr (CFGval.init 7 500 0) 200 0).
  - vm_compute. reflexivity.
  - vm_compute. reflexivity.
  - lia.
Defined.

(** X4: in a configuration with [100 * step <= maxPwr], as [gCoyoteCfg]
    is, no pair of levels is encoded above [maxPwr] on either channel. *)
Theorem PowerVal_within_maxPwr cfg a b
  (Hcfg : 100 * CFGval.step cfg <= CFGval.maxPwr cfg) :
  PowerVal.A (PowerVal.ctor cfg a b) <= CFGval.maxPwr cfg /\
  PowerVal.B (PowerVal.ctor cfg a b) <= CFGval.maxPwr cfg.
Proof.
  destruct (PowerVal_channel_bound cfg a b) as [HA HB]. lia.
Qed.

Lemma PowerVal_within_maxPwr_witness :
  100 * CFGval.step gCoyoteCfg <= CFGval.maxPwr gCoyoteCfg /\
  PowerVal.A (PowerVal.ctor gCoyoteCfg 255 255) <= CFGval.maxPwr gCoyoteCfg /\
  PowerVal.B (PowerVal.ctor gCoyoteCfg 255 255) <= CFGval.maxPwr gCoyoteCfg.
Proof.
  split; [ vm_compute; discriminate | ].
  apply (PowerVal_within_maxPwr gCoyoteCfg 255 255).
  vm_compute. discriminate.
Defined.

(** X5: when [100 * step] fits the channel field the encoding is monotone:
    a higher level never gives a lower channel value, on A and on B,
    whatever the other channel is set to. *)
Theorem PowerVal_monotone cfg a a' b b'
  (Hfit : 100 * CFGval.step cfg < 2 ^ 11)
  (Ha : 0 <= a <= a') (Ha' : a' <= 255) :
  PowerVal.A (PowerVal.ctor cfg a b) <= PowerVal.A (PowerVal.ctor cfg a' b') /\
  PowerVal.B (PowerVal.ctor cfg b a) <= PowerVal.B (PowerVal.ctor cfg b' a').
Proof.
  pose proof (CFGval_step_range cfg) as Hs.
  destruct (PowerVal_channels cfg a b) as (EA & _ & _).
  destruct (PowerVal_channels cfg a' b') as (EA' & _ & _).
  destruct (PowerVal_channels cfg b a) as (_ & EB & _).
  destruct (PowerVal_channels cfg b' a') as (_ & EB' & _).
  rewrite EA, EA', EB, EB'. unfold uint8.
  rewrite (Z.mod_small a), (Z.mod_small a') by (change (2 ^ 8) with 256; lia).
  rewrite !Z.mod_small by (split; [ nia | nia ]).
  split; nia.
Qed.

Lemma PowerVal_monotone_witness :
  (100 * CFGval.step gCoyoteCfg < 2 ^ 11 /\ 0 <= 30 <= 99 /\ 99 <= 255) /\
  PowerVal.A (PowerVal.ctor gCoyoteCfg 30 0)
    <= PowerVal.A (PowerVal.ctor gCoyoteCfg 99 100) /\
  PowerVal.B (PowerVal.ctor gCoyoteCfg 0 30)
    <= PowerVal.B (PowerVal.ctor gCoyoteCfg 100 99).
Proof.
  split; [ split; [ vm_compute; reflexivity | lia ] | ].
  apply (PowerVal_monotone gCoyoteCfg 30 99 0 100).
  - vm_compute. reflexivity.
  - lia.
  - lia.
Defined.

(** X6: the two channels do not interact: channel A of a frame does not
    depend on the level given for B, nor channel B on the level given for
    A. *)
Theorem PowerVal_channels_independent cfg a a' b b' :
  PowerVal.A (PowerVal.ctor cfg a b) = PowerVal.A (PowerVal.ctor cfg a b') /\
  PowerVal.B (PowerVal.ctor cfg a b) = PowerVal.B (PowerVal.ctor cfg a' b).
Proof.
  destruct (PowerVal_ctor_fields cfg a b) as (EA & EB & _).
  destruct (PowerVal_ctor_fields cfg a b') as (EA' & _ & _).
  destruct (PowerVal_ctor_fields cfg a' b) as (_ & EB' & _).
  rewrite EA, EA', EB, EB'. split; reflexivity.
Qed.

(** X7: the three transmitted bytes of a power frame denote, least
    significant byte first, [B + 2^11 * A]; that integer is the whole
    object, so sending three of its four bytes loses nothing. *)
Theorem PowerVal_wire_layout cfg a b :
  le_value (PowerVal.to_bytes (PowerVal.ctor cfg a b))
    = PowerVal.B (PowerVal.ctor cfg a b)
      + 2 ^ 11 * PowerVal.A (PowerVal.ctor cfg a b) /\
  le_value (PowerVal.to_bytes (PowerVal.ctor cfg a b)) = PowerVal.ctor cfg a b.
Proof.
  pose proof (PowerVal_ctor_range cfg a b) as Hr.
  assert (Hle : le_value (PowerVal.to_bytes (PowerVal.ctor cfg a b))
                = PowerVal.ctor cfg a b).
  { unfold PowerVal.to_bytes.
    rewrite le_value_transmitted, get_field_div_mod by lia.
    change (2 ^ 0) with 1. rewrite Z.div_1_r. apply Z.mod_small.
    change (2 ^ 22) with 4194304 in Hr. change (2 ^ 24) with 16777216. lia. }
  split; [ | exact Hle ].
  rewrite Hle.
  destruct (PowerVal_ctor_fields cfg a b) as (EA & EB & _).
  rewrite EA, EB. apply PowerVal_ctor_value.
Qed.

(** X8: when [step] is not zero and [100 * step] fits the channel field,
    the transmitted bytes determine the two levels, for levels up to 100:
    different pairs of levels are never sent as the same bytes. *)
Theorem PowerVal_wire_injective cfg a b a' b'
  (Hstep : 0 < CFGval.step cfg) (Hfit : 100 * CFGval.step cfg < 2 ^ 11)
  (Ha : 0 <= a <= 100) (Hb : 0 <= b <= 100)
  (Ha' : 0 <= a' <= 100) (Hb' : 0 <= b' <= 100)
  (Hbytes : PowerVal.to_bytes (PowerVal.ctor cfg a b)
            = PowerVal.to_bytes (PowerVal.ctor cfg a' b')) :
  a = a' /\ b = b'.
Proof.
  assert (Hobj : PowerVal.ctor cfg a b = PowerVal.ctor cfg a' b').
  { destruct (PowerVal_wire_layout cfg a b) as [_ E].
    destruct (PowerVal_wire_layout cfg a' b') as [_ E'].
    rewrite <- E, <- E', Hbytes. reflexivity. }
  assert (Hlevel : forall v, 0 <= v <= 100 ->
            (Z.min (uint8 v) 100 * CFGval.step cfg) mod 2 ^ 11
            = v * CFGval.step cfg).
  { intros v Hv. unfold uint8.
    rewrite (Z.mod_small v) by (change (2 ^ 8) with 256; lia).
    replace (Z.min v 100) with v by lia.
    apply Z.mod_small. nia. }
  destruct (PowerVal_channels cfg a b) as (EA & EB & _).
  destruct (PowerVal_channels cfg a' b') as (EA' & EB' & _).
  rewrite Hobj in EA, EB. rewrite EA' in EA. rewrite EB' in EB.
  rewrite !Hlevel in EA, EB by assumption.
  split; nia.
Qed.

Lemma PowerVal_wire_injective_witness :
  (0 < CFGval.step gCoyoteCfg /\ 100 * CFGval.step gCoyoteCfg < 2 ^ 11 /\
   PowerVal.to_bytes (PowerVal.ctor gCoyoteCfg 25 100)
   = PowerVal.to_bytes (PowerVal.ctor gCoyoteCfg 25 100)) /\
  25 = 25 /\ 100 = 100.
Proof.
  split; [ vm_compute; repeat split; reflexivity | ].
  apply (PowerVal_wire_injective gCoyoteCfg 25 100 25 100);
    first [ lia | vm_compute; reflexivity ].
Defined.

(** ** Waveform steps on the wire *)

(** X9: on parameters within their field widths the encoding is
    injective: two steps transmitted as the same three bytes were built
    from the same [(x, y, z)]. *)
Theorem WaveVal_wire_injective (x y z x' y' z' : BinNums.Z)
  (Hx : 0 <= x < 32) (Hy : 0 <= y < 1024) (Hz : 0 <= z < 32)
  (Hx' : 0 <= x' < 32) (Hy' : 0 <= y' < 1024) (Hz' : 0 <= z' < 32)
  (Hbytes : WaveVal.to_bytes (WaveVal.ctor x y z)
            = WaveVal.to_bytes (WaveVal.ctor x' y' z')) :
  x = x' /\ y = y' /\ z = z'.
Proof.
  apply transmitted_xyz in Hbytes. unfold xyz in Hbytes.
  destruct (WaveVal_ctor_fields x y z) as (Ex & Ey & Ez & _).
  destruct (WaveVal_ctor_fields x' y' z') as (Ex' & Ey' & Ez' & _).
  rewrite Ex, Ey, Ez, Ex', Ey', Ez' in Hbytes.
  rewrite !Z.mod_small in Hbytes by (simpl; lia).
  injection Hbytes as -> -> ->. auto.
Qed.

Lemma WaveVal_wire_injective_witness :
  WaveVal.to_bytes (WaveVal.ctor 1 9 16) = WaveVal.to_bytes (WaveVal.ctor 1 9 16) /\
  1 = 1 /\ 9 = 9 /\ 16 = 16.
Proof.
  split; [ reflexivity | ].
  apply (WaveVal_wire_injective 1 9 16 1 9 16); first [ lia | reflexivity ].
Defined.

(** X10: parameters beyond the field widths alias parameters within them:
    whatever the arguments, the step built is the step built from
    [X mod 32], [Y mod 1024] and [Z mod 32]. *)
Theorem WaveVal_ctor_aliases (X Y Z : BinNums.Z) :
  WaveVal.ctor X Y Z = WaveVal.ctor (X mod 32) (Y mod 1024) (Z mod 32).
Proof.
  rewrite !WaveVal_ctor_value.
  change (2 ^ 5) with 32. change (2 ^ 10) with 1024.
  rewrite !Z.mod_mod by lia. reflexivity.
Qed.

(** X11: the byte triples the field constructor can produce are exactly
    those whose third byte is below 16, that is, whose four reserved wire
    bits are zero. *)
Theorem WaveVal_ctor_image b0 b1 b2 :
  (exists X Y Z, WaveVal.to_bytes (WaveVal.ctor X Y Z) = [b0; b1; b2])
  <-> byte_to_Z b2 < 2 ^ 4.
Proof.
  pose proof (byte_to_Z_range b0) as H0.
  pose proof (byte_to_Z_range b1) as H1.
  pose proof (byte_to_Z_range b2) as H2.
  change (2 ^ 8) with 256 in *. change (2 ^ 4) with 16.
  split.
  - intros (X & Y & Z & Hbytes).
    pose proof (WaveVal_ctor_range X Y Z) as Hr.
    apply (f_equal le_value) in Hbytes. unfold WaveVal.to_bytes in Hbytes.
    rewrite le_value_transmitted, get_field_div_mod in Hbytes by lia.
    change (2 ^ 0) with 1 in Hbytes. rewrite Z.div_1_r in Hbytes.
    rewrite Z.mod_small in Hbytes
      by (change (2 ^ 20) with 1048576 in Hr;
          change (2 ^ 24) with 16777216; lia).
    rewrite Hbytes in Hr. unfold le_value in Hr. simpl in Hr.
    change (2 ^ 8) with 256 in Hr. change (2 ^ 20) with 1048576 in Hr. lia.
  - intros Hb2.
    set (n := le_value [b0; b1; b2]).
    assert (Hn : 0 <= n < 1048576).
    { subst n. unfold le_value. simpl. change (2 ^ 8) with 256. lia. }
    exists (n mod 32), ((n / 32) mod 1024), (n / 32768).
    assert (Hctor : WaveVal.ctor (n mod 32) ((n / 32) mod 1024) (n / 32768) = n).
    { rewrite WaveVal_ctor_value.
      change (2 ^ 5) with 32. change (2 ^ 10) with 1024.
      change (2 ^ 15) with 32768.
      rewrite !Z.mod_mod by lia. Z.div_mod_to_equations. lia. }
    rewrite Hctor. apply transmitted_le_value.
Qed.

Lemma WaveVal_ctor_image_witness :
  byte_to_Z x08 < 2 ^ 4 /\
  exists X Y Z, WaveVal.to_bytes (WaveVal.ctor X Y Z) = [x21; x01; x08].
Proof.
  split; [ reflexivity | ].
  apply (proj2 (WaveVal_ctor_image x21 x01 x08)). reflexivity.
Defined.

(** X12: the step decoded from three bytes has the parameters read off
    the integer [n] the bytes denote least significant byte first:
    [x = n mod 32], [y = (n / 32) mod 1024], [z = (n / 32768) mod 32],
    whatever the storage held. *)
Theorem from_bytes_fields b0 b1 b2 this :
  exists v,
    WaveVal.from_bytes [b0; b1; b2] this = Some v /\
    xyz v = (le_value [b0; b1; b2] mod 2 ^ 5,
             (le_value [b0; b1; b2] / 2 ^ 5) mod 2 ^ 10,
             (le_value [b0; b1; b2] / 2 ^ 15) mod 2 ^ 5).
Proof.
  destruct (from_bytes_transmitted [b0; b1; b2] this) as (v & Hv & Hb & _).
  exists v. split; [ exact Hv | ].
  assert (Heq : transmitted v = transmitted (le_value [b0; b1; b2])).
  { rewrite transmitted_le_value. exact Hb. }
  rewrite (transmitted_xyz _ _ Heq).
  unfold xyz, WaveVal.x, WaveVal.y, WaveVal.z.
  rewrite !get_field_div_mod by lia.
  change (2 ^ 0) with 1. rewrite Z.div_1_r. reflexivity.
Qed.

(** X13: the byte constructor never writes the fourth byte of the object:
    bits 24-31 are those of the storage it was run on, so the [rsvd] field
    of a decoded step is the high half of the third byte plus sixteen times
    that stale byte; a 32-bit storage stays 32-bit. *)
Theorem from_bytes_fourth_byte bytes this :
  exists v,
    WaveVal.from_bytes bytes this = Some v /\
    get_field 24 8 v = get_field 24 8 this /\
    WaveVal.rsvd v = get_field 20 4 v + 2 ^ 4 * get_field 24 8 this /\
    (0 <= this < 2 ^ 32 -> 0 <= v < 2 ^ 32).
Proof.
  destruct (from_bytes_spec bytes this) as (b0 & b1 & b2 & _ & Hres).
  eexists. split; [ exact Hres | ].
  set (v := obj_set_byte 2 b2 _).
  assert (H4 : get_field 24 8 v = get_field 24 8 this)
    by apply fourth_byte_set3.
  split; [ exact H4 | ]. split.
  - rewrite <- H4. unfold WaveVal.rsvd.
    rewrite !get_field_div_mod by lia.
    change (2 ^ 24) with (2 ^ 20 * 2 ^ 4).
    rewrite <- Z.div_div by lia.
    set (q := v / 2 ^ 20).
    change (2 ^ 12) with 4096. change (2 ^ 4) with 16. change (2 ^ 8) with 256.
    Z.div_mod_to_equations. lia.
  - intros Hthis. subst v. unfold obj_set_byte.
    repeat (apply set_field_range; [ lia | lia | simpl; lia | ]).
    exact Hthis.
Qed.

Lemma from_bytes_fourth_byte_witness :
  0 <= 4278190080 < 2 ^ 32 /\
  exists v,
    WaveVal.from_bytes [xe1; x03; x0a] 4278190080 = Some v /\
    get_field 24 8 v = get_field 24 8 4278190080 /\
    WaveVal.rsvd v = get_field 20 4 v + 2 ^ 4 * get_field 24 8 4278190080 /\
    (0 <= 4278190080 < 2 ^ 32 -> 0 <= v < 2 ^ 32).
Proof.
  split; [ lia | ].
  apply (from_bytes_fourth_byte [xe1; x03; x0a] 4278190080).
Defined.

(** Writing the first three bytes of an object over themselves changes
    nothing. *)
Lemma set3_self obj :
  obj_set_byte 2 (obj_byte obj 2)
    (obj_set_byte 1 (obj_byte obj 1)
       (obj_set_byte 0 (obj_byte obj 0) obj)) = obj.
Proof.
  unfold obj_set_byte, obj_byte.
  rewrite !byte_to_of_Z by (apply get_field_range; lia).
  unfold set_field, get_field.
  change (8 * Z.of_nat 0) with 0. change (8 * Z.of_nat 1) with 8.
  change (8 * Z.of_nat 2) with 16.
  Z.bitblast.
Qed.

(** X14: decoding, serialising and decoding again changes nothing: the
    step decoded from a byte sequence is also the step decoded from its own
    transmitted bytes, in the same storage or over itself. *)
Theorem from_bytes_to_bytes_stable bytes this :
  exists v,
    WaveVal.from_bytes bytes this = Some v /\
    WaveVal.from_bytes (WaveVal.to_bytes v) this = Some v /\
    WaveVal.from_bytes (WaveVal.to_bytes v) v = Some v.
Proof.
  destruct (from_bytes_spec bytes this) as (b0 & b1 & b2 & _ & Hres).
  eexists. split; [ exact Hres | ].
  set (v := obj_set_byte 2 b2 _).
  assert (Hb : WaveVal.to_bytes v = [b0; b1; b2]) by apply transmitted_set3.
  split.
  - rewrite Hb.
    destruct (from_bytes_spec [b0; b1; b2] this) as (c0 & c1 & c2 & Hn & Hr).
    rewrite pad_or_truncate_id in Hn by reflexivity.
    injection Hn as <- <- <-. exact Hr.
  - destruct (from_bytes_spec (WaveVal.to_bytes v) v)
      as (c0 & c1 & c2 & Hn & Hr).
    rewrite pad_or_truncate_id in Hn by reflexivity.
    unfold WaveVal.to_bytes, transmitted in Hn. simpl in Hn.
    injection Hn as <- <- <-. rewrite Hr. f_equal. apply set3_self.
Qed.

(** ** The loops of the byte constructor *)

(** X15: the padding loop stops on every vector; it only appends zero
    bytes, as many as are missing to reach three, so the result has
    [max 3 size] bytes, starts with the vector it was given, and padding
    twice is padding once. *)
Theorem pad_result bytes :
  WaveVal.pad bytes = bytes ++ replicate (3 - length bytes) x00 /\
  length (WaveVal.pad bytes) = Nat.max 3 (length bytes) /\
  take (length bytes) (WaveVal.pad bytes) = bytes /\
  WaveVal.pad (WaveVal.pad bytes) = WaveVal.pad bytes.
Proof.
  assert (Hlen : length (WaveVal.pad bytes) = Nat.max 3 (length bytes)).
  { rewrite pad_spec, length_app, length_replicate. lia. }
  split; [ apply pad_spec | ]. split; [ exact Hlen | ]. split.
  - rewrite pad_spec. apply take_app_length.
  - rewrite (pad_spec (WaveVal.pad bytes)), Hlen.
    replace (3 - Nat.max 3 (length bytes))%nat with 0%nat by lia.
    simpl. apply app_nil_r.
Qed.

(** X16: the copy loop indexes the vector at 0, 1 and 2: run on a vector
    of fewer than three bytes it would read outside it, and has no result;
    run on the padded vector it has one. *)
Theorem copy_needs_padding bytes this (Hshort : (length bytes < 3)%nat) :
  WaveVal.copy 3 0 bytes this = None /\
  exists v, WaveVal.copy 3 0 (WaveVal.pad bytes) this = Some v.
Proof.
  split.
  - destruct bytes as [ | a [ | b [ | c rest ] ] ]; simpl in *;
      first [ reflexivity | lia ].
  - destruct (from_bytes_spec bytes this) as (b0 & b1 & b2 & _ & Hres).
    eexists. exact Hres.
Qed.

Lemma copy_needs_padding_witness :
  (length [xe1; x03] < 3)%nat /\
  WaveVal.copy 3 0 [xe1; x03] 0 = None /\
  exists v, WaveVal.copy 3 0 (WaveVal.pad [xe1; x03]) 0 = Some v.
Proof.
  split; [ simpl; lia | ].
  apply (copy_needs_padding [xe1; x03] 0). simpl. lia.
Defined.

(** ** Waveforms built from byte sequences *)

(** X17: a waveform written as a list of byte-constructed steps is always
    built: it has one step per byte sequence, in the order written, and
    each step is transmitted as its sequence padded or cut to three bytes,
    whatever the temporaries' storage held. *)
Theorem Waveform_of_byte_sequences fresh i (bl : list (list byte)) :
  exists steps,
    construct fresh i (map WaveVal.from_bytes bl) = Some steps /\
    length steps = length bl /\
    map WaveVal.to_bytes steps = map pad_or_truncate bl.
Proof.
  destruct (construct_from_bytes fresh i bl) as (steps & Hsteps & Hmap).
  exists steps. split; [ exact Hsteps | ]. split; [ | exact Hmap ].
  apply (f_equal (@length _)) in Hmap. rewrite !length_map in Hmap.
  exact Hmap.
Qed.

(** ** Configuration *)

(** X18: a configuration initialised with values that fit its fields
    ([step] 8 bits, [maxPwr] 11 bits, [rsvd] 13 bits) reads back those
    values from each field. *)
Theorem CFGval_init_fields s m r
  (Hs : 0 <= s < 2 ^ 8) (Hm : 0 <= m < 2 ^ 11) (Hr : 0 <= r < 2 ^ 13) :
  CFGval.step (CFGval.init s m r) = s /\
  CFGval.maxPwr (CFGval.init s m r) = m /\
  CFGval.rsvd (CFGval.init s m r) = r.
Proof.
  unfold CFGval.step, CFGval.maxPwr, CFGval.rsvd, CFGval.init.
  repeat split.
  - rewrite !get_set_other, get_set_same by lia. apply Z.mod_small. exact Hs.
  - rewrite get_set_other, get_set_same by lia. apply Z.mod_small. exact Hm.
  - rewrite get_set_same by lia. apply Z.mod_small. exact Hr.
Qed.

Lemma CFGval_init_fields_witness :
  (0 <= 7 < 2 ^ 8 /\ 0 <= 2000 < 2 ^ 11 /\ 0 <= 0 < 2 ^ 13) /\
  CFGval.step (CFGval.init 7 2000 0) = 7 /\
  CFGval.maxPwr (CFGval.init 7 2000 0) = 2000 /\
  CFGval.rsvd (CFGval.init 7 2000 0) = 0.
Proof.
  split; [ simpl; lia | ].
  apply (CFGval_init_fields 7 2000 0); simpl; lia.
Defined.

(** ** Default power frame *)

(** X19: level 0 is encoded as channel value 0 in every configuration, so
    the frame built with the default arguments [a = 0, b = 0] is the zero
    object and is transmitted as three zero bytes. *)
Theorem PowerVal_zero_level cfg a b :
  PowerVal.A (PowerVal.ctor cfg 0 b) = 0 /\
  PowerVal.B (PowerVal.ctor cfg a 0) = 0 /\
  PowerVal.ctor cfg 0 0 = 0 /\
  PowerVal.to_bytes (PowerVal.ctor cfg 0 0) = [x00; x00; x00].
Proof.
  destruct (PowerVal_channels cfg 0 b) as (EA & _ & _).
  destruct (PowerVal_channels cfg a 0) as (_ & EB & _).
  assert (Hzero : PowerVal.ctor cfg 0 0 = 0).
  { rewrite PowerVal_ctor_value, !steps_min by apply uint8_range.
    reflexivity. }
  rewrite EA, EB, Hzero. repeat split; reflexivity.
Qed.
